(** * A shallow embedding of the bravesite worker (src/worker.js)

    The worker maps a hostname [<labels>.brave.site] to the Unstoppable
    Domains name [<labels>.brave], resolves it through the Unstoppable API
    (with an in-process cache [apiCache]), interprets the returned records
    (redirect, IPFS hash or not found) and fetches IPFS content through a
    race of three gateways followed by a sequential retry loop.

    Network effects are supplied by an oracle record [Net]; observable
    effects (upstream resolution queries, gateway fetches, retry delays)
    are written to an event trace. *)

From stdpp Require Import base gmap strings list.
From Stdlib Require Import ZArith Ascii.

Local Open Scope string_scope.

(** ** JavaScript string helpers *)

(** [s.endsWith(suffix)] *)
Fixpoint endsWith (s suffix : string) : bool :=
  String.eqb s suffix ||
  match s with
  | EmptyString => false
  | String _ s' => endsWith s' suffix
  end.

(** [s.split('.')]: JavaScript keeps empty fields, so a string with [n]
    dots always yields [n + 1] parts. *)
Fixpoint split_dot (s : string) : list string :=
  match s with
  | EmptyString => [""]
  | String c s' =>
      let rest := split_dot s' in
      if Ascii.eqb c "."%char then "" :: rest
      else match rest with
           | w :: ws => String c w :: ws
           | [] => [String c ""]
           end
  end.

(** [parts.join('.')] *)
Definition join_dot (parts : list string) : string := String.concat "." parts.

(** [parts.slice(0, -2)] *)
Definition slice_0_neg2 {A} (parts : list A) : list A :=
  firstn (length parts - 2) parts.

(** ** Hostname parsing (handleRequest, lines 87-123) *)

Inductive parse_result :=
  | Welcome                          (* [hostname === 'brave.site'] *)
  | Reject (status : Z) (msg : string)
  | Key (braveDomainToQuery : string).

Definition welcome_msg : string :=
  "Welcome to the .brave domain resolver. Access a .brave domain like yourdomain.brave.site or a subdomain like sub.yourdomain.brave.site.".

Definition parseHostname (hostname : string) : parse_result :=
  if negb (endsWith hostname ".brave.site") then
    if String.eqb hostname "brave.site" then Welcome
    else Reject 400 "Invalid or unsupported domain format. Must end with .brave.site"
  else
    let parts := split_dot hostname in
    if Nat.ltb (length parts) 3 then Reject 400 "Invalid domain format."
    else
      let targetDomainParts := slice_0_neg2 parts in
      if Nat.eqb (length targetDomainParts) 0 then
        Reject 400 "Please specify a domain, e.g., yourdomain.brave.site."
      else Key (join_dot targetDomainParts +:+ ".brave").

Example parse_sunspot : parseHostname "sunspot.brave.site" = Key "sunspot.brave".
Proof. reflexivity. Qed.
Example parse_ab : parseHostname "a.b.brave.site" = Key "a.b.brave".
Proof. reflexivity. Qed.
Example parse_dot : parseHostname ".brave.site" = Key ".brave".
Proof. reflexivity. Qed.
Example parse_root : parseHostname "brave.site" = Welcome.
Proof. reflexivity. Qed.

(** ** Data model *)

(** The JSON body returned by the Unstoppable Domains API: a record
    mapping under [records] and possibly one under [data.records]. JSON
    objects are maps from string keys to (here) string values. *)
Record APIRecord := {
  records : option (gmap string string);        (* record.records *)
  data_records : option (gmap string string)    (* record.data?.records *)
}.

(** A gateway response as used by the worker: [status], the
    [Content-Type] header ([headers.get] returns [null] when absent), the
    pathname of [response.url], the body, and the error with which
    [await response.blob()] rejects when reading the body fails ([None]:
    the body is read). *)
Record GwResponse := {
  gw_status : Z;
  gw_content_type : option string;
  gw_path : string;
  gw_body : string;
  gw_blob_error : option string
}.

(** [response.ok] *)
Definition status_ok (st : Z) : bool := (200 <=? st)%Z && (st <=? 299)%Z.
Definition gw_ok (r : GwResponse) : bool := status_ok (gw_status r).

(** One [fetch(gateway)]: a network error (the promise rejects) or a response. *)
Inductive fetch_result :=
  | FetchError (msg : string)
  | FetchResp (r : GwResponse).

(** The upstream resolution query: [fetch] throws, or returns a status, a
    status text, a body, and the outcome of [response.json()] (a decoding
    error message or the decoded record). *)
Inductive upstream_result :=
  | UError (msg : string)
  | UResp (status : Z) (statusText body : string) (json : string + APIRecord).

(** The network as seen by one request. [race_settle gs] is the order in
    which the racing fetch promises over [gs] settle (never empty: there
    are three candidates); [attempt g i] is the result of the [i]-th
    sequential fallback fetch of [g]. [url_href u] is the runtime's URL
    parser on an input [u] that starts with a scheme: the serialization
    [new URL(u).href], or [None] when the parser throws. *)
Record Net := {
  resolve : string -> upstream_result;
  race_settle : list string -> (string * fetch_result) * list (string * fetch_result);
  attempt : string -> nat -> fetch_result;
  url_href : string -> option string
}.

Inductive event :=
  | EResolve (key : string)   (* query to api.unstoppabledomains.com *)
  | EFetch (url : string)     (* fetch of an IPFS gateway URL *)
  | EDelay (ms : nat).        (* await setTimeout(resolve, delay) *)

(** Outbound response: status, explicitly set headers, body. *)
Record Response := {
  status : Z;
  headers : list (string * string);
  body : string
}.

Definition text_response (st : Z) (msg : string) : Response :=
  {| status := st; headers := []; body := msg |}.

(** How the promise returned by an async function settles: fulfilled
    with a response, or rejected with an error. *)
Inductive settled :=
  | Resolved (r : Response)
  | Rejected (err : string).

(** ** Content fetcher (fetchIPFS, lines 2-68) *)

Definition gateways (ipfsHash : string) : list string :=
  [ "https://cloudflare-ipfs.com/ipfs/" +:+ ipfsHash;
    "https://ipfs.io/ipfs/" +:+ ipfsHash;
    "https://dweb.link/ipfs/" +:+ ipfsHash ].

(** A racing candidate: the [.then] turns a non-ok response into a
    rejection and the [.catch] keeps network errors rejected. *)
Definition candidate (x : string * fetch_result) : option GwResponse :=
  match snd x with
  | FetchResp r => if gw_ok r then Some r else None
  | FetchError _ => None
  end.

(** [Promise.race]: settles like the first candidate to settle. [None]
    means the race rejected and the catch block falls through. *)
Definition race (first : string * fetch_result) (later : list (string * fetch_result))
  : option GwResponse :=
  candidate first.

(** The inner loop [for (let i = 0; i < retries; i++)] over one gateway,
    from attempt [i] with [n] attempts left. *)
Fixpoint retry_loop (net : Net) (g : string) (retries delay : nat) (i n : nat)
  : option GwResponse * list event :=
  match n with
  | 0 => (None, [])
  | S n' =>
      match attempt net g i with
      | FetchError _ =>
          (* catch: log and continue with the next iteration *)
          let '(res, tr) := retry_loop net g retries delay (S i) n' in
          (res, EFetch g :: tr)
      | FetchResp r =>
          if gw_ok r then (Some r, [EFetch g])
          else
            (* if (i < retries - 1) await delay *)
            let d := if Nat.ltb i (retries - 1) then [EDelay delay] else [] in
            let '(res, tr) := retry_loop net g retries delay (S i) n' in
            (res, EFetch g :: (d ++ tr)%list)
      end
  end.

(** The outer loop [for (const gateway of gateways)]. *)
Fixpoint fallback (net : Net) (retries delay : nat) (gs : list string)
  : option GwResponse * list event :=
  match gs with
  | [] => (None, [])
  | g :: gs' =>
      let '(res, tr) := retry_loop net g retries delay 0 retries in
      match res with
      | Some r => (Some r, tr)
      | None => let '(res', tr') := fallback net retries delay gs' in (res', (tr ++ tr')%list)
      end
  end.

Definition fetchIPFS_with (retries delay : nat) (ipfsHash : string) (net : Net)
  : option GwResponse * list event :=
  let gs := gateways ipfsHash in
  let started := map EFetch gs in
  let '(first, later) := race_settle net gs in
  match race first later with
  | Some r => (Some r, started)
  | None => let '(res, tr) := fallback net retries delay gs in (res, (started ++ tr)%list)
  end.

(** [fetchIPFS(ipfsHash)] with its defaults [retries = 3], [delay = 1000]. *)
Definition fetchIPFS : string -> Net -> option GwResponse * list event :=
  fetchIPFS_with 3 1000.

(** ** Record interpretation (processApiResponse, lines 177-192) *)

(** JavaScript truthiness of a string-valued lookup ([undefined] or [""]
    are falsy). *)
Definition truthy (o : option string) : bool :=
  match o with Some s => negb (String.eqb s "") | None => false end.

(** [a || b] on such values. *)
Definition js_or (a b : option string) : option string :=
  if truthy a then a else b.

(** [record.records?.[k]] *)
Definition rec_lookup (record : APIRecord) (k : string) : option string :=
  match records record with Some m => m !! k | None => None end.

Inductive outcome :=
  | Redirect (url : string)
  | Content (ipfsHash : string)
  | NotFound.

Definition interpret (record : APIRecord) : outcome :=
  let redirectUrl := rec_lookup record "browser.redirect_url" in
  if truthy redirectUrl then Redirect (default "" redirectUrl)
  else
    let ipfsHash := js_or (rec_lookup record "dweb.ipfs.hash")
                      (js_or (rec_lookup record "ipfs.html.value")
                         (js_or (rec_lookup record "crypto.IPFS.value") None)) in
    if truthy ipfsHash then Content (default "" ipfsHash) else NotFound.

(** ** Content type (processApiResponse, lines 202-209) *)

Definition inferContentType (path : string) : string :=
  if endsWith path ".png" then "image/png"
  else if endsWith path ".jpg" then "image/jpeg"
  else if endsWith path ".json" then "application/json"
  else "text/html".

(** [let contentType = headers.get('Content-Type'); if (!contentType) ...] *)
Definition contentTypeOf (declared : option string) (path : string) : string :=
  if truthy declared then default "" declared else inferContentType path.

(** ** processApiResponse (lines 170-221) *)

Definition not_found_response : Response :=
  text_response 404 "No IPFS hash found for domain".

Definition all_failed_response : Response :=
  text_response 500 "Error fetching IPFS content: All gateways failed".

(** *** [Response.redirect(url, 302)]

    [Response.redirect] parses [url] with the URL parser and no base URL
    and throws a [TypeError] when parsing fails; otherwise the answer has
    status 302 and the serialized URL as [Location]. Without a base URL
    the parser fails on every input that does not start with a scheme:
    after removing ASCII tab and newline characters and leading C0
    control or space characters, an ASCII letter, then ASCII letters,
    digits, [+], [-] or [.], then [:]. (Trailing C0 control or space
    characters, which the parser also strips, cannot change this test.)
    What it does on the other inputs is [url_href]. *)

Definition is_tab_or_newline (c : ascii) : bool :=
  let n := nat_of_ascii c in Nat.eqb n 9 || Nat.eqb n 10 || Nat.eqb n 13.

Definition is_c0_or_space (c : ascii) : bool := Nat.leb (nat_of_ascii c) 32.

Definition is_ascii_alpha (c : ascii) : bool :=
  let n := nat_of_ascii c in (Nat.leb 65 n && Nat.leb n 90) || (Nat.leb 97 n && Nat.leb n 122).

Definition is_ascii_digit (c : ascii) : bool :=
  let n := nat_of_ascii c in Nat.leb 48 n && Nat.leb n 57.

Fixpoint remove_tab_newline (s : string) : string :=
  match s with
  | EmptyString => EmptyString
  | String c s' => if is_tab_or_newline c then remove_tab_newline s' else String c (remove_tab_newline s')
  end.

Fixpoint strip_leading (s : string) : string :=
  match s with
  | EmptyString => EmptyString
  | String c s' => if is_c0_or_space c then strip_leading s' else s
  end.

(** The scheme state: scheme characters up to a [:]. *)
Fixpoint scheme_rest (s : string) : bool :=
  match s with
  | EmptyString => false
  | String c s' =>
      if Ascii.eqb c ":" then true
      else if is_ascii_alpha c || is_ascii_digit c || Ascii.eqb c "+"
              || Ascii.eqb c "-" || Ascii.eqb c "." then scheme_rest s'
      else false
  end.

Definition has_scheme (url : string) : bool :=
  match strip_leading (remove_tab_newline url) with
  | EmptyString => false
  | String c s' => is_ascii_alpha c && scheme_rest s'
  end.

Definition redirect_response (href : string) : Response :=
  {| status := 302; headers := [("Location", href)]; body := "" |}.

Definition Response_redirect (net : Net) (url : string) : settled :=
  if has_scheme url then
    match url_href net url with
    | Some href => Resolved (redirect_response href)
    | None => Rejected "TypeError: Invalid URL"
    end
  else Rejected "TypeError: Invalid URL".

Definition content_response (r : GwResponse) : Response :=
  {| status := 200;
     headers := [("Content-Type", contentTypeOf (gw_content_type r) (gw_path r));
                 ("Cache-Control", "public, max-age=3600");
                 ("Access-Control-Allow-Origin", "*")];
     body := gw_body r |}.

(** [async function processApiResponse]: an exception thrown in its body
    (by [Response.redirect] or by [await ipfsResponse.blob()]) rejects the
    returned promise. *)
Definition processApiResponse (record : APIRecord) (net : Net) : settled * list event :=
  match interpret record with
  | Redirect url => (Response_redirect net url, [])
  | NotFound => (Resolved not_found_response, [])
  | Content ipfsHash =>
      let '(ipfsResponse, tr) := fetchIPFS ipfsHash net in
      match ipfsResponse with
      | None => (Resolved all_failed_response, tr)
      | Some r =>
          match gw_blob_error r with
          | Some err => (Rejected err, tr)
          | None => (Resolved (content_response r), tr)
          end
      end
  end.

(** ** handleRequest (lines 79-167) *)

(** The worker's bindings. *)
Record Env := { UNSTOPPABLE_API_KEY : option string }.

(** [apiCache]: the module-level [Map] from the queried name to the
    decoded API record. *)
Abbreviation Cache := (gmap string APIRecord).

(** The two [return processApiResponse(...)] statements (lines 131, 162)
    return the promise without [await], so the [try/catch] of lines
    80-166 does not see its rejection: the promise of [handleRequest]
    settles as that of [processApiResponse]. The other answers are
    fulfilled. Each request is run to completion before the next one
    starts (the interleaving of concurrent requests at the [await]s is
    not modelled). *)
Definition handleRequest (apiCache : Cache) (env : Env) (hostname : string) (net : Net)
  : Cache * list event * settled :=
  if negb (truthy (UNSTOPPABLE_API_KEY env)) then
    (apiCache, [], Resolved (text_response 500 "API key not valid"))
  else
    match parseHostname hostname with
    | Welcome =>
        (apiCache, [],
         Resolved {| status := 200; headers := [("Content-Type", "text/plain")]; body := welcome_msg |})
    | Reject st msg => (apiCache, [], Resolved (text_response st msg))
    | Key braveDomainToQuery =>
        match apiCache !! braveDomainToQuery with
        | Some cachedData =>
            let '(resp, tr) := processApiResponse cachedData net in (apiCache, tr, resp)
        | None =>
            let q := EResolve braveDomainToQuery in
            match resolve net braveDomainToQuery with
            | UError msg => (apiCache, [q], Resolved (text_response 500 ("Server error: " +:+ msg)))
            | UResp st statusText errorText json =>
                if negb (status_ok st) then
                  (apiCache, [q],
                   Resolved (text_response 500 ("Error querying Unstoppable Domains: " +:+ statusText
                                                  +:+ " - " +:+ errorText)))
                else
                  match json with
                  | inl msg => (apiCache, [q], Resolved (text_response 500 ("Server error: " +:+ msg)))
                  | inr record =>
                      let apiCache' := <[braveDomainToQuery := record]> apiCache in
                      let '(resp, tr) := processApiResponse record net in
                      (apiCache', q :: tr, resp)
                  end
            end
        end
    end.

(** A sequence of requests served by one worker process, threading
    [apiCache]; each request is paired with its trace and response. *)
Fixpoint run (apiCache : Cache) (reqs : list (Env * string * Net))
  : list ((Env * string * Net) * (list event * settled)) :=
  match reqs with
  | [] => []
  | (env, h, net) :: rest =>
      let '(apiCache', tr, resp) := handleRequest apiCache env h net in
      ((env, h, net), (tr, resp)) :: run apiCache' rest
  end.

(** * Lemmas on the string helpers *)

Lemma endsWith_unfold (s suffix : string) :
  endsWith s suffix =
  String.eqb s suffix ||
  match s with EmptyString => false | String _ s' => endsWith s' suffix end.
Proof. destruct s; reflexivity. Qed.

Lemma endsWith_app (p s : string) : endsWith (p +:+ s) s = true.
Proof.
  induction p as [|c p IH].
  - simpl String.append. rewrite endsWith_unfold, String.eqb_refl. reflexivity.
  - change (String c p +:+ s) with (String c (p +:+ s)).
    rewrite endsWith_unfold, IH. apply orb_true_r.
Qed.

Lemma endsWith_inv (h s : string) :
  endsWith h s = true -> exists p, h = p +:+ s.
Proof.
  induction h as [|c h IH]; intros H; rewrite endsWith_unfold in H;
    apply orb_true_iff in H as [H|H].
  - apply String.eqb_eq in H. subst. exists "". reflexivity.
  - discriminate.
  - apply String.eqb_eq in H. rewrite <- H. exists "". reflexivity.
  - destruct (IH H) as [p ->]. exists (String c p). reflexivity.
Qed.

Lemma length_append (p q : string) :
  String.length (p +:+ q) = String.length p + String.length q.
Proof.
  induction p as [|c p IH]; [reflexivity|].
  change (String c p +:+ q) with (String c (p +:+ q)). cbn [String.length]. lia.
Qed.

(** A suffix test only looks at the end of the string. *)
Lemma endsWith_app_long (p a b : string) :
  String.length b <= String.length a -> endsWith (p +:+ a) b = endsWith a b.
Proof.
  intros Hl. induction p as [|c p IH]; [reflexivity|].
  change (String c p +:+ a) with (String c (p +:+ a)).
  rewrite endsWith_unfold, IH.
  destruct (String.eqb (String c (p +:+ a)) b) eqn:E; [|reflexivity].
  apply String.eqb_eq in E. subst b. simpl in Hl. rewrite length_append in Hl. lia.
Qed.

Lemma split_dot_nonempty (s : string) : split_dot s <> [].
Proof.
  destruct s as [|c s]; simpl; [discriminate|].
  destruct (Ascii.eqb c "."%char); [discriminate|].
  destruct (split_dot s); discriminate.
Qed.

Lemma split_dot_app_dot (p q : string) :
  split_dot (p +:+ String "." q) = (split_dot p ++ split_dot q)%list.
Proof.
  induction p as [|c p IH]; [reflexivity|].
  simpl. rewrite IH.
  destruct (Ascii.eqb c "."%char); [reflexivity|].
  destruct (split_dot p) as [|w ws] eqn:E.
  - exfalso. exact (split_dot_nonempty p E).
  - reflexivity.
Qed.

Lemma concat_cons_char (sep w : string) (c : ascii) (ws : list string) :
  String.concat sep (String c w :: ws) = String c (String.concat sep (w :: ws)).
Proof. destruct ws; reflexivity. Qed.

Lemma join_split_dot (s : string) : join_dot (split_dot s) = s.
Proof.
  unfold join_dot.
  induction s as [|c s IH]; [reflexivity|].
  cbn [split_dot]. destruct (Ascii.eqb c "."%char) eqn:Ec.
  - apply Ascii.eqb_eq in Ec. subst c.
    destruct (split_dot s) as [|w ws] eqn:E.
    + exfalso. exact (split_dot_nonempty s E).
    + change (String "." (String.concat "." (w :: ws)) = String "." s).
      rewrite IH. reflexivity.
  - destruct (split_dot s) as [|w ws] eqn:E.
    + exfalso. exact (split_dot_nonempty s E).
    + rewrite concat_cons_char, IH. reflexivity.
Qed.

Lemma slice_0_neg2_snoc2 {A} (l : list A) (a b : A) :
  slice_0_neg2 (l ++ [a; b])%list = l.
Proof.
  unfold slice_0_neg2. rewrite length_app. simpl.
  replace (length l + 2 - 2) with (length l) by lia.
  rewrite firstn_app, firstn_all, Nat.sub_diag. simpl. apply app_nil_r.
Qed.

Lemma split_dot_brave_site (p : string) :
  split_dot (p +:+ ".brave.site") = (split_dot p ++ ["brave"; "site"])%list.
Proof.
  change ".brave.site" with (String "." "brave.site").
  rewrite split_dot_app_dot. reflexivity.
Qed.

Lemma split_dot_brave_site_length (h : string) :
  endsWith h ".brave.site" = true -> 3 <= length (split_dot h).
Proof.
  intros H. destruct (endsWith_inv _ _ H) as [p ->].
  rewrite split_dot_brave_site, length_app. simpl.
  pose proof (split_dot_nonempty p). destruct (split_dot p); simpl; [congruence|lia].
Qed.

Lemma parseHostname_brave_site (p : string) :
  parseHostname (p +:+ ".brave.site") = Key (p +:+ ".brave").
Proof.
  unfold parseHostname. rewrite endsWith_app. simpl negb. cbv iota.
  rewrite split_dot_brave_site, slice_0_neg2_snoc2, join_split_dot.
  pose proof (split_dot_nonempty p).
  destruct (split_dot p) as [|w ws]; [congruence|].
  rewrite length_app. simpl.
  replace (Nat.ltb (S (length ws + 2)) 3) with false by (symmetry; apply Nat.ltb_ge; lia).
  reflexivity.
Qed.

Lemma append_assoc (a b c : string) : (a +:+ b) +:+ c = a +:+ (b +:+ c).
Proof.
  induction a as [|x a IH]; [reflexivity|].
  change (String x ((a +:+ b) +:+ c) = String x (a +:+ (b +:+ c))).
  rewrite IH. reflexivity.
Qed.

Lemma concat_cons_nonempty (sep x : string) (ws : list string) :
  ws <> [] -> String.concat sep (x :: ws) = x +:+ sep +:+ String.concat sep ws.
Proof. destruct ws; [congruence|reflexivity]. Qed.

Lemma join_dot_app (l m : list string) :
  l <> [] -> m <> [] -> join_dot (l ++ m)%list = join_dot l +:+ "." +:+ join_dot m.
Proof.
  unfold join_dot. intros Hl Hm.
  induction l as [|x l IH]; [congruence|].
  destruct l as [|y l].
  - simpl. destruct m; [congruence|reflexivity].
  - rewrite <- app_comm_cons, concat_cons_nonempty by (destruct m; simpl; congruence).
    rewrite IH by discriminate.
    rewrite (concat_cons_nonempty "." x (y :: l)) by discriminate.
    rewrite <- !append_assoc. reflexivity.
Qed.

(** ** Request-level constants *)

Definition welcome_response : Response :=
  {| status := 200; headers := [("Content-Type", "text/plain")]; body := welcome_msg |}.

Definition unsupported_response : Response :=
  text_response 400 "Invalid or unsupported domain format. Must end with .brave.site".

Definition no_key_response : Response := text_response 500 "API key not valid".

Definition env_with_key : Env := {| UNSTOPPABLE_API_KEY := Some "k" |}.
Definition env_without_key : Env := {| UNSTOPPABLE_API_KEY := None |}.

(** A network on which every query fails; its URL parser returns an
    input with a scheme unchanged. *)
Definition net_offline : Net := {|
  resolve := fun _ => UError "offline";
  race_settle := fun gs => ((default "" (head gs), FetchError "offline"),
                            map (fun g => (g, FetchError "offline")) (tail gs));
  attempt := fun _ _ => FetchError "offline";
  url_href := fun u => Some u
|}.

(** * Claims *)

(** ** Hostname parser *)

(** C2: for a hostname [p.brave.site] the LookupKey is [p.brave], i.e. the
    labels before [brave.site] joined by [.] followed by [.brave]; every
    hostname ending in [.brave.site] splits into at least three labels, so
    the "fewer than 3 labels" 400 rejection applies to none of them (and
    would be a 400 if it did). *)
Theorem C2_lookup_key :
  (forall p : string, parseHostname (p +:+ ".brave.site") = Key (p +:+ ".brave")) /\
  (forall labels : list string, labels <> [] ->
     parseHostname (join_dot (labels ++ ["brave"; "site"])%list)
     = Key (join_dot labels +:+ ".brave")) /\
  (forall h : string, endsWith h ".brave.site" = true ->
     parseHostname h = Key (join_dot (slice_0_neg2 (split_dot h)) +:+ ".brave")) /\
  (forall h : string, endsWith h ".brave.site" = true -> 3 <= length (split_dot h)) /\
  (forall h : string, endsWith h ".brave.site" = true -> length (split_dot h) < 3 ->
     parseHostname h = Reject 400 "Invalid domain format.").
Proof.
  split; [exact parseHostname_brave_site|].
  split.
  { intros labels Hl. rewrite join_dot_app by (auto || discriminate).
    change (join_dot ["brave"; "site"]) with "brave.site".
    exact (parseHostname_brave_site (join_dot labels)). }
  split.
  { intros h H. destruct (endsWith_inv _ _ H) as [p ->].
    rewrite parseHostname_brave_site, split_dot_brave_site, slice_0_neg2_snoc2,
      join_split_dot. reflexivity. }
  split; [exact split_dot_brave_site_length|].
  intros h H Hlt. pose proof (split_dot_brave_site_length h H). lia.
Qed.

(** C10: for a hostname ending in [.brave.site] with at least three
    labels the labels left after dropping [brave] and [site] are never
    empty, so the "Please specify a domain" rejection is unreachable;
    [.brave.site] itself yields the LookupKey [.brave], and with the API
    key configured and an empty cache entry the worker queries the
    resolver for [.brave]. *)
Theorem C10_missing_domain_unreachable :
  (forall h : string, endsWith h ".brave.site" = true -> 3 <= length (split_dot h) ->
     slice_0_neg2 (split_dot h) <> [] /\
     forall st msg, parseHostname h <> Reject st msg) /\
  parseHostname ".brave.site" = Key ".brave" /\
  (forall (c : Cache) (env : Env) (net : Net),
     truthy (UNSTOPPABLE_API_KEY env) = true -> c !! ".brave" = None ->
     exists c' tr resp,
       handleRequest c env ".brave.site" net = (c', EResolve ".brave" :: tr, resp)).
Proof.
  split.
  { intros h H _. destruct (endsWith_inv _ _ H) as [p ->]. split.
    - rewrite split_dot_brave_site, slice_0_neg2_snoc2. apply split_dot_nonempty.
    - intros st msg. rewrite parseHostname_brave_site. discriminate. }
  split; [reflexivity|].
  intros c env net Hk Hc. unfold handleRequest. rewrite Hk. simpl negb. cbv iota.
  change (parseHostname ".brave.site") with (Key ".brave"). cbv iota.
  rewrite Hc.
  destruct (resolve net ".brave") as [msg|st stt errt [msg|record]].
  - eauto.
  - destruct (negb (status_ok st)); [eauto|].
    eauto.
  - destruct (negb (status_ok st)); [eauto|].
    destruct (processApiResponse record net). eauto.
Qed.

(** C3 (as stated, refuted): without the [UNSTOPPABLE_API_KEY] binding
    the request for [brave.site] is answered 500, not with the welcome. *)
Lemma C3_no_key_counterexample :
  handleRequest ∅ env_without_key "brave.site" net_offline
  = (∅, [], Resolved no_key_response) /\ status no_key_response <> 200%Z.
Proof. split; [reflexivity|discriminate]. Qed.

(** C3 (amended): with the API key configured, [brave.site] gets the 200
    welcome and a hostname neither equal to [brave.site] nor ending in
    [.brave.site] gets a 400; without the key every hostname gets a 500.
    In all these cases the cache is untouched and the trace is empty: no
    resolution query is issued. *)
Theorem C3_root_and_foreign_hosts :
  forall (c : Cache) (env : Env) (net : Net),
    (truthy (UNSTOPPABLE_API_KEY env) = true ->
       handleRequest c env "brave.site" net = (c, [], Resolved welcome_response)) /\
    (forall h : string, truthy (UNSTOPPABLE_API_KEY env) = true ->
       endsWith h ".brave.site" = false -> h <> "brave.site" ->
       handleRequest c env h net = (c, [], Resolved unsupported_response)) /\
    (forall h : string, truthy (UNSTOPPABLE_API_KEY env) = false ->
       handleRequest c env h net = (c, [], Resolved no_key_response)).
Proof.
  intros c env net. unfold handleRequest. split; [|split].
  - intros Hk. rewrite Hk. reflexivity.
  - intros h Hk He Hne. rewrite Hk. simpl negb. cbv iota.
    unfold parseHostname. rewrite He. simpl negb. cbv iota.
    destruct (String.eqb h "brave.site") eqn:E.
    + apply String.eqb_eq in E. contradiction.
    + reflexivity.
  - intros h Hk. rewrite Hk. reflexivity.
Qed.

(** ** Record interpreter *)

(** The precedence read off the spec: the value at a record name counts
    when it is present and non-empty. *)
Definition nonempty_at (m : gmap string string) (k : string) : option string :=
  match m !! k with
  | Some v => if String.eqb v "" then None else Some v
  | None => None
  end.

Fixpoint first_some (l : list (option string)) : option string :=
  match l with
  | [] => None
  | Some x :: _ => Some x
  | None :: l' => first_some l'
  end.

Definition interpret_spec (m : gmap string string) : outcome :=
  match nonempty_at m "browser.redirect_url" with
  | Some u => Redirect u
  | None =>
      match first_some (map (nonempty_at m)
                          ["dweb.ipfs.hash"; "ipfs.html.value"; "crypto.IPFS.value"]) with
      | Some h => Content h
      | None => NotFound
      end
  end.

(** The field mapping of the record is read at [record.records]. *)
Lemma interpret_records (record : APIRecord) (m : gmap string string) :
  records record = Some m -> interpret record = interpret_spec m.
Proof.
  intros Hm. unfold interpret, interpret_spec, rec_lookup, nonempty_at, js_or, truthy.
  rewrite Hm.
  destruct (m !! "browser.redirect_url") as [u|];
    [destruct (String.eqb u "") eqn:Eu; simpl; [|reflexivity]|simpl];
    destruct (m !! "dweb.ipfs.hash") as [a|];
    try (destruct (String.eqb a "") eqn:Ea; simpl);
    destruct (m !! "ipfs.html.value") as [b|];
    try (destruct (String.eqb b "") eqn:Eb; simpl);
    destruct (m !! "crypto.IPFS.value") as [c|];
    try (destruct (String.eqb c "") eqn:Ec; simpl);
    try rewrite ?Ea, ?Eb, ?Ec; reflexivity.
Qed.

Example has_scheme_https : has_scheme "https://x.example" = true.
Proof. reflexivity. Qed.

Example has_scheme_bare_host : has_scheme "example.com" = false.
Proof. reflexivity. Qed.

Definition redirect_with_hash_record (u : string) : APIRecord :=
  {| records := Some {["browser.redirect_url" := u; "dweb.ipfs.hash" := "QmContent"]};
     data_records := None |}.

(** C1 (as stated, refuted): a non-empty [browser.redirect_url] that is
    not an absolute URL (["not a url"], ["example.com"]) takes precedence
    over the content identifier but yields no 302: [Response.redirect]
    throws and the promise of [processApiResponse] rejects; served from
    the cache, the request's promise rejects as well, with no response of
    the worker. *)
Lemma C1_unparseable_redirect_counterexample :
  interpret (redirect_with_hash_record "not a url") = Redirect "not a url" /\
  processApiResponse (redirect_with_hash_record "not a url") net_offline
  = (Rejected "TypeError: Invalid URL", []) /\
  processApiResponse (redirect_with_hash_record "example.com") net_offline
  = (Rejected "TypeError: Invalid URL", []) /\
  handleRequest {["x.brave" := redirect_with_hash_record "example.com"]} env_with_key
    "x.brave.site" net_offline
  = ({["x.brave" := redirect_with_hash_record "example.com"]}, [],
     Rejected "TypeError: Invalid URL").
Proof. split; [|split; [|split]]; vm_compute; reflexivity. Qed.

(** C1 (amended): for a record whose field mapping [m] is its top-level
    [records], the interpretation is the fixed precedence over [m]. A
    non-empty [browser.redirect_url] [u] wins over any content identifier
    and no gateway is fetched: when [u] parses as a URL the answer is a
    302 whose [Location] is the serialized URL; when it does not (in
    particular when it does not start with a scheme) [Response.redirect]
    throws and [processApiResponse] rejects. Otherwise the first
    non-empty of [dweb.ipfs.hash], [ipfs.html.value], [crypto.IPFS.value]
    is the content identifier, and with none the answer is 404. *)
Theorem C1_record_precedence :
  forall (record : APIRecord) (m : gmap string string) (net : Net),
    records record = Some m ->
    interpret record = interpret_spec m /\
    (forall u, interpret_spec m = Redirect u ->
       snd (processApiResponse record net) = [] /\
       (forall href, has_scheme u = true -> url_href net u = Some href ->
          fst (processApiResponse record net) = Resolved (redirect_response href) /\
          status (redirect_response href) = 302%Z /\
          headers (redirect_response href) = [("Location", href)]) /\
       (has_scheme u = false \/ url_href net u = None ->
          exists err, fst (processApiResponse record net) = Rejected err)) /\
    (interpret_spec m = NotFound ->
       processApiResponse record net = (Resolved not_found_response, []) /\
       status not_found_response = 404%Z).
Proof.
  intros record m net Hm.
  pose proof (interpret_records record m Hm) as Hi.
  split; [exact Hi|].
  unfold processApiResponse. rewrite Hi. split.
  - intros u ->. cbn [fst snd]. split; [reflexivity|]. unfold Response_redirect. split.
    + intros href -> ->. auto.
    + intros [-> | Hn]; [eauto|]. destruct (has_scheme u); [rewrite Hn|]; eauto.
  - intros ->. split; reflexivity.
Qed.

Lemma C1_record_precedence_witness :
  records (redirect_with_hash_record "https://x.example")
  = Some {["browser.redirect_url" := "https://x.example"; "dweb.ipfs.hash" := "QmContent"]} /\
  fst (processApiResponse (redirect_with_hash_record "https://x.example") net_offline)
  = Resolved (redirect_response "https://x.example").
Proof.
  split; [reflexivity|].
  destruct (C1_record_precedence (redirect_with_hash_record "https://x.example")
              {["browser.redirect_url" := "https://x.example"; "dweb.ipfs.hash" := "QmContent"]}
              net_offline eq_refl) as [Hi [Hr _]].
  destruct (Hr "https://x.example") as [_ [Hok _]]; [vm_compute; reflexivity|].
  apply (Hok "https://x.example"); reflexivity.
Defined.

Definition nested_record : APIRecord :=
  {| records := None; data_records := Some {["dweb.ipfs.hash" := "QmNested"]} |}.

Definition top_level_record : APIRecord :=
  {| records := Some {["dweb.ipfs.hash" := "QmNested"]}; data_records := None |}.

(** C6 (code defect): the record lookups read only [record.records],
    while the key listings of the same function (lines 175 and 190) read
    [record.records || record.data?.records]. A record whose mapping is
    nested under [data.records] is never interpreted: it is always
    NotFound, so [data.records['dweb.ipfs.hash'] = 'QmNested'] gets a 404,
    while the same mapping at top level is Content. *)
Theorem C6_nested_records_ignored :
  (forall m : gmap string string,
     interpret {| records := None; data_records := Some m |} = NotFound) /\
  interpret nested_record = NotFound /\
  processApiResponse nested_record net_offline = (Resolved not_found_response, []) /\
  interpret top_level_record = Content "QmNested".
Proof.
  split; [intros m; reflexivity|].
  split; [reflexivity|]. split; [reflexivity|].
  vm_compute. reflexivity.
Qed.

(** ** Content fetcher: the race *)

(** The first individually successful candidate of a settlement order. *)
Fixpoint first_ok (l : list (string * fetch_result)) : option GwResponse :=
  match l with
  | [] => None
  | x :: l' => match candidate x with Some r => Some r | None => first_ok l' end
  end.

Lemma candidate_ok (x : string * fetch_result) (r : GwResponse) :
  candidate x = Some r -> snd x = FetchResp r /\ gw_ok r = true.
Proof.
  unfold candidate. destruct (snd x) as [|r'] ; [discriminate|].
  destruct (gw_ok r') eqn:E; [|discriminate]. intros [= <-]. auto.
Qed.

(** C4: in every settlement order the race's winner is a 2xx response,
    the first successful one, and the first candidate to settle; a first
    settlement that fails makes the race lose without looking at later
    settlements, and [fetchIPFS] then runs the sequential fallback. *)
Theorem C4_race_first_settlement :
  forall (first : string * fetch_result) (later : list (string * fetch_result)),
    (forall r, race first later = Some r ->
       snd first = FetchResp r /\ gw_ok r = true /\ first_ok (first :: later) = Some r) /\
    (candidate first = None -> race first later = None) /\
    (forall (ipfsHash : string) (net : Net),
       race_settle net (gateways ipfsHash) = (first, later) ->
       (forall r, candidate first = Some r ->
          fetchIPFS ipfsHash net = (Some r, map EFetch (gateways ipfsHash))) /\
       (candidate first = None ->
          fetchIPFS ipfsHash net =
          let '(res, tr) := fallback net 3 1000 (gateways ipfsHash) in
          (res, (map EFetch (gateways ipfsHash) ++ tr)%list))).
Proof.
  intros first later. split; [|split].
  - unfold race. intros r Hr. destruct (candidate_ok _ _ Hr) as [H1 H2].
    simpl. rewrite Hr. auto.
  - unfold race. auto.
  - intros ipfsHash net Hs. unfold fetchIPFS, fetchIPFS_with. rewrite Hs.
    unfold race. split.
    + intros r ->. reflexivity.
    + intros ->. destruct (fallback net 3 1000 (gateways ipfsHash)). reflexivity.
Qed.

(** ** Content fetcher: the sequential fallback *)

Definition attempt_ok (f : fetch_result) : option GwResponse :=
  match f with
  | FetchResp r => if gw_ok r then Some r else None
  | FetchError _ => None
  end.

Fixpoint first_ok_result (l : list fetch_result) : option GwResponse :=
  match l with
  | [] => None
  | f :: l' => match attempt_ok f with Some r => Some r | None => first_ok_result l' end
  end.

(** The fallback attempts in the order the loops issue them: gateways in
    order, attempts [0 .. retries - 1] on each. *)
Definition attempts_in_order (net : Net) (retries : nat) (gs : list string)
  : list fetch_result :=
  flat_map (fun g => map (attempt net g) (seq 0 retries)) gs.

Lemma first_ok_result_app (l1 l2 : list fetch_result) :
  first_ok_result (l1 ++ l2)%list =
  match first_ok_result l1 with Some r => Some r | None => first_ok_result l2 end.
Proof.
  induction l1 as [|f l1 IH]; [reflexivity|].
  simpl. destruct (attempt_ok f); [reflexivity|exact IH].
Qed.

Lemma retry_loop_result (net : Net) (g : string) (retries delay i n : nat) :
  fst (retry_loop net g retries delay i n) = first_ok_result (map (attempt net g) (seq i n)).
Proof.
  revert i. induction n as [|n IH]; intros i; [reflexivity|].
  simpl. unfold attempt_ok.
  destruct (attempt net g i) as [msg|r].
  - destruct (retry_loop net g retries delay (S i) n) as [res tr] eqn:E.
    simpl. rewrite <- IH, E. reflexivity.
  - destruct (gw_ok r); [reflexivity|].
    destruct (retry_loop net g retries delay (S i) n) as [res tr] eqn:E.
    simpl. rewrite <- IH, E. reflexivity.
Qed.

Lemma fallback_result (net : Net) (retries delay : nat) (gs : list string) :
  fst (fallback net retries delay gs) = first_ok_result (attempts_in_order net retries gs).
Proof.
  unfold attempts_in_order.
  induction gs as [|g gs IH]; [reflexivity|].
  simpl. rewrite first_ok_result_app, <- (retry_loop_result net g retries delay).
  destruct (retry_loop net g retries delay 0 retries) as [[r|] tr]; [reflexivity|].
  destruct (fallback net retries delay gs) as [res' tr'] eqn:E.
  simpl in *. exact IH.
Qed.

Lemma first_ok_result_none (l : list fetch_result) :
  (forall f, In f l -> attempt_ok f = None) -> first_ok_result l = None.
Proof.
  induction l as [|f l IH]; intros H; [reflexivity|].
  simpl. rewrite (H f (or_introl eq_refl)). apply IH. intros f' Hf'. apply H. now right.
Qed.

(** C5: [fetchIPFS]'s fallback returns the first 2xx response among the
    attempts in loop order (3 gateways, 3 attempts each); when every
    racing candidate fails and every fallback attempt fails, [fetchIPFS]
    returns [null] and [processApiResponse] answers 500 "All gateways
    failed". *)
Theorem C5_all_gateways_failed :
  forall (ipfsHash : string) (net : Net),
    fst (fallback net 3 1000 (gateways ipfsHash))
    = first_ok_result (attempts_in_order net 3 (gateways ipfsHash)) /\
    ((let '(first, later) := race_settle net (gateways ipfsHash) in
      Forall (fun x => candidate x = None) (first :: later)) ->
     (forall g i, In g (gateways ipfsHash) -> i < 3 -> attempt_ok (attempt net g i) = None) ->
     fst (fetchIPFS ipfsHash net) = None /\
     forall record : APIRecord, interpret record = Content ipfsHash ->
       fst (processApiResponse record net) = Resolved all_failed_response /\
       status all_failed_response = 500%Z).
Proof.
  intros ipfsHash net. split; [apply fallback_result|].
  intros Hrace Hatt.
  assert (Hf : fst (fetchIPFS ipfsHash net) = None).
  { unfold fetchIPFS, fetchIPFS_with.
    destruct (race_settle net (gateways ipfsHash)) as [first later].
    inversion Hrace as [|x l Hfirst _]; subst.
    unfold race. rewrite Hfirst.
    destruct (fallback net 3 1000 (gateways ipfsHash)) as [res tr] eqn:E.
    cbn [fst]. change res with (fst (res, tr)). rewrite <- E, fallback_result.
    apply first_ok_result_none.
    intros f Hin. unfold attempts_in_order in Hin.
    apply in_flat_map in Hin as [g [Hg Hin]].
    apply in_map_iff in Hin as [i [<- Hi]]. apply in_seq in Hi.
    apply Hatt; [exact Hg|lia]. }
  split; [exact Hf|].
  intros record Hrec. unfold processApiResponse. rewrite Hrec.
  destruct (fetchIPFS ipfsHash net) as [[r|] tr]; [discriminate|].
  split; reflexivity.
Qed.

(** Two networks on which the first fallback attempt on the first
    gateway fails, once with a network error and once with a 503, and the
    second attempt succeeds. The race is lost in both. *)
Definition ok_response : GwResponse :=
  {| gw_status := 200; gw_content_type := Some "text/html"; gw_path := "/ipfs/Qm1";
     gw_body := "hello"; gw_blob_error := None |}.

Definition net_first_attempt (first_failure : fetch_result) : Net := {|
  resolve := fun _ => UError "unused";
  race_settle := fun gs => ((default "" (head gs), FetchError "race"),
                            map (fun g => (g, FetchError "race")) (tail gs));
  attempt := fun _ i => match i with 0 => first_failure | _ => FetchResp ok_response end;
  url_href := fun u => Some u
|}.

Definition net_reset : Net := net_first_attempt (FetchError "connection reset").

Definition net_503 : Net :=
  net_first_attempt (FetchResp {| gw_status := 503; gw_content_type := None;
                                  gw_path := "/ipfs/Qm1"; gw_body := "";
                                  gw_blob_error := None |}).

(** C7 (code defect): a non-2xx attempt is followed by the 1000 ms delay
    before the next attempt on the same gateway (line 58), but an attempt
    that throws goes to the [catch] block, which has no delay: the
    network error is retried at once. *)
Theorem C7_network_error_skips_delay :
  let g := "https://cloudflare-ipfs.com/ipfs/Qm1" in
  fallback net_reset 3 1000 (gateways "Qm1") = (Some ok_response, [EFetch g; EFetch g]) /\
  fallback net_503 3 1000 (gateways "Qm1")
  = (Some ok_response, [EFetch g; EDelay 1000; EFetch g]).
Proof. split; reflexivity. Qed.

(** ** Content type *)

(** C9 (as stated, refuted): a source that declares an empty
    [Content-Type] does not have it used unchanged: [headers.get] returns
    [""], which is falsy, and the type is inferred ([text/html] here). *)
Lemma C9_empty_content_type_counterexample :
  contentTypeOf (Some "") "/ipfs/Qm1" = "text/html" /\ "text/html" <> "".
Proof. split; [reflexivity|discriminate]. Qed.

(** C9 (amended): a declared non-empty [Content-Type] is used unchanged;
    an absent or empty one is inferred from the path: [.png] gives
    [image/png], [.jpg] gives [image/jpeg], [.json] gives
    [application/json], anything else [text/html]; the content response
    carries that type. *)
Theorem C9_content_type :
  (forall (ct path : string), ct <> "" -> contentTypeOf (Some ct) path = ct) /\
  (forall path : string, contentTypeOf (Some "") path = contentTypeOf None path) /\
  (forall p : string, contentTypeOf None (p +:+ ".png") = "image/png") /\
  (forall p : string, contentTypeOf None (p +:+ ".jpg") = "image/jpeg") /\
  (forall p : string, contentTypeOf None (p +:+ ".json") = "application/json") /\
  (forall path : string,
     endsWith path ".png" = false -> endsWith path ".jpg" = false ->
     endsWith path ".json" = false -> contentTypeOf None path = "text/html") /\
  (forall r : GwResponse,
     headers (content_response r)
     = [("Content-Type", contentTypeOf (gw_content_type r) (gw_path r));
        ("Cache-Control", "public, max-age=3600");
        ("Access-Control-Allow-Origin", "*")]).
Proof.
  split.
  { intros ct path Hct. unfold contentTypeOf, truthy.
    destruct (String.eqb ct "") eqn:E; [apply String.eqb_eq in E; contradiction|].
    reflexivity. }
  split; [reflexivity|].
  split.
  { intros p. unfold contentTypeOf, inferContentType. simpl truthy. cbv iota.
    rewrite endsWith_app. reflexivity. }
  split.
  { intros p. unfold contentTypeOf, inferContentType. simpl truthy. cbv iota.
    rewrite !endsWith_app_long by (simpl; lia). reflexivity. }
  split.
  { intros p. unfold contentTypeOf, inferContentType. simpl truthy. cbv iota.
    rewrite !endsWith_app_long by (simpl; lia). reflexivity. }
  split.
  { intros path H1 H2 H3. unfold contentTypeOf, inferContentType. simpl truthy. cbv iota.
    rewrite H1, H2, H3. reflexivity. }
  reflexivity.
Qed.

(** ** Resolution cache *)

Definition not_resolve (e : event) : Prop :=
  match e with EResolve _ => False | _ => True end.

Lemma retry_loop_no_resolve (net : Net) (g : string) (retries delay i n : nat) :
  Forall not_resolve (snd (retry_loop net g retries delay i n)).
Proof.
  revert i. induction n as [|n IH]; intros i; simpl; [constructor|].
  destruct (attempt net g i) as [msg|r].
  - specialize (IH (S i)). destruct (retry_loop net g retries delay (S i) n).
    simpl in *. constructor; [exact I|exact IH].
  - destruct (gw_ok r); [repeat constructor|].
    specialize (IH (S i)). destruct (retry_loop net g retries delay (S i) n).
    simpl in *. constructor; [exact I|]. apply Forall_app. split; [|exact IH].
    destruct (Nat.ltb i (retries - 1)); repeat constructor.
Qed.

Lemma fallback_no_resolve (net : Net) (retries delay : nat) (gs : list string) :
  Forall not_resolve (snd (fallback net retries delay gs)).
Proof.
  induction gs as [|g gs IH]; simpl; [constructor|].
  pose proof (retry_loop_no_resolve net g retries delay 0 retries) as H.
  destruct (retry_loop net g retries delay 0 retries) as [[r|] tr]; [exact H|].
  destruct (fallback net retries delay gs). simpl in *. apply Forall_app. auto.
Qed.

Lemma processApiResponse_no_resolve (record : APIRecord) (net : Net) :
  Forall not_resolve (snd (processApiResponse record net)).
Proof.
  unfold processApiResponse. destruct (interpret record) as [u|ipfsHash|]; try constructor.
  assert (H : Forall not_resolve (snd (fetchIPFS ipfsHash net))).
  { unfold fetchIPFS, fetchIPFS_with.
    destruct (race_settle net (gateways ipfsHash)) as [first later].
    assert (Hs : Forall not_resolve (map EFetch (gateways ipfsHash))) by repeat constructor.
    destruct (race first later); [exact Hs|].
    pose proof (fallback_no_resolve net 3 1000 (gateways ipfsHash)) as Hf.
    destruct (fallback net 3 1000 (gateways ipfsHash)). cbn [snd] in *.
    apply Forall_app. split; [exact Hs|exact Hf]. }
  destruct (fetchIPFS ipfsHash net) as [[r|] tr]; [destruct (gw_blob_error r)|]; exact H.
Qed.

(** A cache hit answers through [processApiResponse] on the cached
    record and leaves the cache unchanged. *)
Lemma handleRequest_hit (c : Cache) (env : Env) (h : string) (net : Net)
    (k : string) (r : APIRecord) :
  truthy (UNSTOPPABLE_API_KEY env) = true -> parseHostname h = Key k -> c !! k = Some r ->
  handleRequest c env h net
  = (c, snd (processApiResponse r net), fst (processApiResponse r net)).
Proof.
  intros Hk Hp Hc. unfold handleRequest. rewrite Hk, Hp. simpl negb. cbv iota.
  rewrite Hc. destruct (processApiResponse r net). reflexivity.
Qed.

(** The cache only changes on a miss whose upstream answer is a 2xx
    decoded record, and then only at the queried key. *)
Lemma handleRequest_cache_write (c : Cache) (env : Env) (h : string) (net : Net) :
  let '(c', _, _) := handleRequest c env h net in
  c' = c \/
  exists k st statusText errorText record,
    parseHostname h = Key k /\ c !! k = None /\
    resolve net k = UResp st statusText errorText (inr record) /\
    status_ok st = true /\ c' = <[k := record]> c.
Proof.
  unfold handleRequest.
  destruct (negb (truthy (UNSTOPPABLE_API_KEY env))); [auto|].
  destruct (parseHostname h) as [| st msg | k] eqn:Hp; [auto|auto|].
  destruct (c !! k) as [r|] eqn:Hc.
  { destruct (processApiResponse r net). auto. }
  destruct (resolve net k) as [msg | st stt errt [msg|record]] eqn:Hr; [auto| |].
  - destruct (negb (status_ok st)); auto.
  - destruct (negb (status_ok st)) eqn:Hok; [auto|].
    destruct (processApiResponse record net). right.
    exists k, st, stt, errt, record. repeat split; auto.
    destruct (status_ok st); [reflexivity|discriminate].
Qed.

Lemma handleRequest_cache_keeps (c : Cache) (env : Env) (h : string) (net : Net)
    (k : string) (r : APIRecord) :
  c !! k = Some r -> (handleRequest c env h net).1.1 !! k = Some r.
Proof.
  intros Hc. pose proof (handleRequest_cache_write c env h net) as H.
  destruct (handleRequest c env h net) as [[c' tr] resp].
  simpl. destruct H as [-> | (k' & st & stt & errt & record & _ & Hnone & _ & _ & ->)];
    [exact Hc|].
  rewrite lookup_insert_ne; [exact Hc|]. intros ->. congruence.
Qed.

(** A request whose LookupKey is cached issues no resolution query. *)
Lemma handleRequest_hit_no_resolve (c : Cache) (env : Env) (h : string) (net : Net)
    (k : string) (r : APIRecord) :
  parseHostname h = Key k -> c !! k = Some r ->
  Forall not_resolve (handleRequest c env h net).1.2.
Proof.
  intros Hp Hc. destruct (truthy (UNSTOPPABLE_API_KEY env)) eqn:Hk.
  - rewrite (handleRequest_hit c env h net k r Hk Hp Hc).
    apply processApiResponse_no_resolve.
  - unfold handleRequest. rewrite Hk. constructor.
Qed.

Lemma run_cached (c : Cache) (k : string) (r : APIRecord) (reqs : list (Env * string * Net)) :
  c !! k = Some r ->
  Forall (fun '((env, h, net), (tr, resp)) =>
            parseHostname h = Key k ->
            Forall not_resolve tr /\
            (truthy (UNSTOPPABLE_API_KEY env) = true -> (resp, tr) = processApiResponse r net))
         (run c reqs).
Proof.
  revert c. induction reqs as [|[[env h] net] reqs IH]; intros c Hc; simpl; [constructor|].
  pose proof (handleRequest_cache_keeps c env h net k r Hc) as Hkeep.
  pose proof (handleRequest_hit_no_resolve c env h net k r) as Hno.
  destruct (handleRequest c env h net) as [[c' tr] resp] eqn:E.
  constructor.
  - intros Hp. split; [exact (Hno Hp Hc)|].
    intros Hk. rewrite (handleRequest_hit c env h net k r Hk Hp Hc) in E.
    injection E as <- <- <-. destruct (processApiResponse r net). reflexivity.
  - apply IH. exact Hkeep.
Qed.

Definition redirect_record : APIRecord :=
  {| records := Some {["browser.redirect_url" := "https://x.example"]}; data_records := None |}.

Definition net_resolving : Net := {|
  resolve := fun _ => UResp 200 "OK" "" (inr redirect_record);
  race_settle := race_settle net_offline;
  attempt := attempt net_offline;
  url_href := url_href net_offline
|}.

(** Two requests for [sunspot.brave.site]: the first queries the resolver,
    the second is answered from the cache. *)
Example run_twice :
  map (fun x => fst (snd x))
      (run ∅ [(env_with_key, "sunspot.brave.site", net_resolving);
              (env_with_key, "sunspot.brave.site", net_offline)])
  = [[EResolve "sunspot.brave"]; []].
Proof. vm_compute. reflexivity. Qed.

(** C8: once a successful resolution has stored the record for a
    LookupKey, every later request in the process for that key issues no
    resolution query and (with the API key configured) is answered from
    the cached record; the cache is written only on a miss whose upstream
    answer is 2xx and decodes, at the queried key. *)
Theorem C8_cache_hits_skip_resolver :
  (forall (c : Cache) (env : Env) (h : string) (net : Net) (k : string)
          (st : Z) (statusText errorText : string) (record : APIRecord),
     truthy (UNSTOPPABLE_API_KEY env) = true -> parseHostname h = Key k ->
     c !! k = None -> resolve net k = UResp st statusText errorText (inr record) ->
     status_ok st = true ->
     (handleRequest c env h net).1.1 !! k = Some record /\
     (handleRequest c env h net).1.2 = EResolve k :: snd (processApiResponse record net)) /\
  (forall (c : Cache) (k : string) (r : APIRecord) (reqs : list (Env * string * Net)),
     c !! k = Some r ->
     Forall (fun '((env, h, net), (tr, resp)) =>
               parseHostname h = Key k ->
               Forall not_resolve tr /\
               (truthy (UNSTOPPABLE_API_KEY env) = true ->
                  (resp, tr) = processApiResponse r net))
            (run c reqs)) /\
  (forall (c : Cache) (env : Env) (h : string) (net : Net),
     let '(c', _, _) := handleRequest c env h net in
     c' = c \/
     exists k st statusText errorText record,
       parseHostname h = Key k /\ c !! k = None /\
       resolve net k = UResp st statusText errorText (inr record) /\
       status_ok st = true /\ c' = <[k := record]> c).
Proof.
  split; [|split; [exact run_cached | exact handleRequest_cache_write]].
  intros c env h net k st stt errt record Hk Hp Hc Hr Hok.
  unfold handleRequest. rewrite Hk, Hp. simpl negb. cbv iota.
  rewrite Hc, Hr, Hok. simpl negb. cbv iota.
  destruct (processApiResponse record net). simpl.
  split; [apply lookup_insert_eq|reflexivity].
Qed.

(** * Further properties of the worker *)

Definition is_resolve (e : event) : bool :=
  match e with EResolve _ => true | _ => false end.
Definition is_fetch (e : event) : bool :=
  match e with EFetch _ => true | _ => false end.
Definition is_delay (e : event) : bool :=
  match e with EDelay _ => true | _ => false end.

Definition count_resolve (tr : list event) : nat := length (List.filter is_resolve tr).
Definition count_fetch (tr : list event) : nat := length (List.filter is_fetch tr).
Definition count_delay (tr : list event) : nat := length (List.filter is_delay tr).

(** Every delay in a trace lasts [d]. *)
Definition delays_are (d : nat) (tr : list event) : Prop :=
  Forall (fun e => match e with EDelay ms => ms = d | _ => True end) tr.

(** ** Hostname parser *)

Lemma parseHostname_Key_inv (h k : string) :
  parseHostname h = Key k -> exists p, h = p +:+ ".brave.site" /\ k = p +:+ ".brave".
Proof.
  intros H. destruct (endsWith h ".brave.site") eqn:E.
  - destruct (endsWith_inv _ _ E) as [p ->]. exists p. split; [reflexivity|].
    rewrite parseHostname_brave_site in H. congruence.
  - unfold parseHostname in H. rewrite E in H. simpl negb in H. cbv iota in H.
    destruct (String.eqb h "brave.site"); discriminate.
Qed.

(** X1: a LookupKey always comes from a hostname [p.brave.site] and is
    [p.brave]: the hostname is recovered from the key by replacing the
    trailing [.brave] with [.brave.site]. *)
Theorem X1_lookup_key_inverse :
  forall h k : string, parseHostname h = Key k ->
    exists p, h = p +:+ ".brave.site" /\ k = p +:+ ".brave".
Proof. exact parseHostname_Key_inv. Qed.

Lemma X1_lookup_key_inverse_witness :
  parseHostname "myai.sunspot.brave.site" = Key "myai.sunspot.brave" /\
  exists p, "myai.sunspot.brave.site" = p +:+ ".brave.site" /\
            "myai.sunspot.brave" = p +:+ ".brave".
Proof.
  split; [reflexivity|].
  apply (X1_lookup_key_inverse "myai.sunspot.brave.site" "myai.sunspot.brave").
  reflexivity.
Defined.

Lemma parseHostname_Welcome_iff (h : string) : parseHostname h = Welcome <-> h = "brave.site".
Proof.
  split; [|intros ->; reflexivity].
  intros H. destruct (endsWith h ".brave.site") eqn:E.
  - destruct (endsWith_inv _ _ E) as [p ->].
    rewrite parseHostname_brave_site in H. discriminate.
  - unfold parseHostname in H. rewrite E in H. simpl negb in H. cbv iota in H.
    destruct (String.eqb h "brave.site") eqn:Eh; [|discriminate].
    apply String.eqb_eq. exact Eh.
Qed.

Lemma parseHostname_Reject_inv (h : string) (st : Z) (msg : string) :
  parseHostname h = Reject st msg ->
  st = 400%Z /\ msg = "Invalid or unsupported domain format. Must end with .brave.site" /\
  endsWith h ".brave.site" = false /\ h <> "brave.site".
Proof.
  intros H. destruct (endsWith h ".brave.site") eqn:E.
  - destruct (endsWith_inv _ _ E) as [p ->].
    rewrite parseHostname_brave_site in H. discriminate.
  - unfold parseHostname in H. rewrite E in H. simpl negb in H. cbv iota in H.
    destruct (String.eqb h "brave.site") eqn:Eh; [discriminate|].
    injection H as <- <-. repeat split; try reflexivity.
    intros ->. rewrite String.eqb_refl in Eh. discriminate.
Qed.

(** X2: the hostname parser answers [Welcome] exactly for [brave.site];
    its only reachable rejection is the 400 "unsupported domain format"
    for a hostname that neither ends in [.brave.site] nor is [brave.site]
    (the "too few parts" and "specify a domain" rejections never occur). *)
Theorem X2_parse_rejections :
  (forall h : string, parseHostname h = Welcome <-> h = "brave.site") /\
  (forall (h : string) (st : Z) (msg : string), parseHostname h = Reject st msg ->
     st = 400%Z /\ msg = "Invalid or unsupported domain format. Must end with .brave.site" /\
     endsWith h ".brave.site" = false /\ h <> "brave.site").
Proof. split; [exact parseHostname_Welcome_iff|exact parseHostname_Reject_inv]. Qed.

(** ** Content fetcher *)

Lemma first_ok_result_ok (l : list fetch_result) :
  match first_ok_result l with Some r => gw_ok r = true | None => True end.
Proof.
  induction l as [|f l IH]; simpl; [exact I|].
  destruct f as [msg|r]; simpl; [exact IH|].
  destruct (gw_ok r) eqn:E; [exact E|exact IH].
Qed.

Lemma fetchIPFS_with_ok (retries delay : nat) (ipfsHash : string) (net : Net) :
  match fst (fetchIPFS_with retries delay ipfsHash net) with
  | Some r => gw_ok r = true | None => True end.
Proof.
  unfold fetchIPFS_with. destruct (race_settle net (gateways ipfsHash)) as [first later].
  unfold race. destruct (candidate first) as [r|] eqn:Hc.
  - exact (proj2 (candidate_ok _ _ Hc)).
  - pose proof (fallback_result net retries delay (gateways ipfsHash)) as Hf.
    destruct (fallback net retries delay (gateways ipfsHash)) as [res tr].
    simpl in Hf |- *. rewrite Hf. apply first_ok_result_ok.
Qed.

(** X3: whatever the retry count and delay, [fetchIPFS] only ever hands
    back a 2xx gateway response (from the race or from the fallback), and
    a 200 answer of [processApiResponse] carries the body of such a
    response. *)
Theorem X3_fetched_response_ok :
  (forall (retries delay : nat) (ipfsHash : string) (net : Net),
     match fst (fetchIPFS_with retries delay ipfsHash net) with
     | Some r => gw_ok r = true | None => True end) /\
  (forall (record : APIRecord) (net : Net) (resp : Response),
     fst (processApiResponse record net) = Resolved resp ->
     status resp = 200%Z ->
     exists r, gw_ok r = true /\ body resp = gw_body r).
Proof.
  split; [exact fetchIPFS_with_ok|].
  intros record net resp. unfold processApiResponse.
  destruct (interpret record) as [u|ipfsHash|].
  - unfold Response_redirect. cbn [fst].
    destruct (has_scheme u); [destruct (url_href net u)|];
      intros E; inversion E; subst; discriminate.
  - pose proof (fetchIPFS_with_ok 3 1000 ipfsHash net) as Hok. fold fetchIPFS in Hok.
    destruct (fetchIPFS ipfsHash net) as [[r|] tr]; cbn [fst] in *.
    + destruct (gw_blob_error r); intros E; inversion E; subst.
      intros _. exists r. auto.
    + intros E; inversion E; subst; discriminate.
  - cbn [fst]. intros E; inversion E; subst; discriminate.
Qed.

Lemma count_app (f : event -> bool) (a b : list event) :
  length (List.filter f (a ++ b)%list) = length (List.filter f a) + length (List.filter f b).
Proof. rewrite List.filter_app, length_app. reflexivity. Qed.

Lemma retry_loop_bounds (net : Net) (g : string) (retries delay i n : nat) :
  let tr := snd (retry_loop net g retries delay i n) in
  count_fetch tr <= n /\ count_delay tr <= retries - 1 - i /\ delays_are delay tr.
Proof.
  unfold count_fetch, count_delay, delays_are.
  revert i. induction n as [|n IH]; intros i; simpl; [split; [lia|split; [lia|constructor]]|].
  destruct (attempt net g i) as [msg|r].
  - specialize (IH (S i)). destruct (retry_loop net g retries delay (S i) n) as [res tr].
    simpl in *. destruct IH as (H1 & H2 & H3). repeat split; [lia|lia|].
    constructor; [exact I|exact H3].
  - destruct (gw_ok r); [simpl; split; [lia|split; [lia|repeat constructor]]|].
    specialize (IH (S i)). destruct (retry_loop net g retries delay (S i) n) as [res tr].
    simpl in *. destruct IH as (H1 & H2 & H3).
    destruct (Nat.ltb_spec i (retries - 1)); simpl;
      rewrite ?count_app; simpl; repeat split; try lia;
      repeat constructor; exact H3.
Qed.

Lemma fallback_bounds (net : Net) (retries delay : nat) (gs : list string) :
  let tr := snd (fallback net retries delay gs) in
  count_fetch tr <= retries * length gs /\
  count_delay tr <= (retries - 1) * length gs /\ delays_are delay tr.
Proof.
  induction gs as [|g gs IH]; simpl;
    [unfold count_fetch, count_delay; simpl; split; [lia|split; [lia|constructor]]|].
  pose proof (retry_loop_bounds net g retries delay 0 retries) as Hr.
  destruct (retry_loop net g retries delay 0 retries) as [[r|] tr]; simpl in Hr.
  - cbn [snd]. destruct Hr as (H1 & H2 & H3). repeat split; [nia|nia|exact H3].
  - destruct (fallback net retries delay gs) as [res' tr']. simpl in *.
    destruct Hr as (H1 & H2 & H3). destruct IH as (I1 & I2 & I3).
    unfold count_fetch, count_delay, delays_are in *. rewrite !count_app.
    repeat split; [nia|nia|]. apply Forall_app. split; assumption.
Qed.

Lemma fetchIPFS_with_bounds (retries delay : nat) (ipfsHash : string) (net : Net) :
  let tr := snd (fetchIPFS_with retries delay ipfsHash net) in
  count_fetch tr <= 3 + 3 * retries /\ count_delay tr <= 3 * (retries - 1) /\
  delays_are delay tr.
Proof.
  unfold fetchIPFS_with. destruct (race_settle net (gateways ipfsHash)) as [first later].
  destruct (race first later).
  - unfold count_fetch, count_delay, delays_are. simpl.
    split; [lia|split; [lia|repeat constructor]].
  - pose proof (fallback_bounds net retries delay (gateways ipfsHash)) as Hf.
    destruct (fallback net retries delay (gateways ipfsHash)) as [res tr].
    simpl in *. destruct Hf as (H1 & H2 & H3).
    unfold count_fetch, count_delay, delays_are in *. simpl.
    repeat split; [lia|lia|]. repeat constructor. exact H3.
Qed.

(** X4: [processApiResponse] fetches no gateway and never waits for a
    redirect or a not-found record; for an IPFS hash it issues at most 12
    gateway fetches (3 racing, then at most 3 attempts on each of the 3
    gateways) and at most 6 waits, each of 1000 ms. *)
Theorem X4_fetch_budget :
  forall (record : APIRecord) (net : Net),
    let tr := snd (processApiResponse record net) in
    match interpret record with
    | Content _ => count_fetch tr <= 12 /\ count_delay tr <= 6 /\ delays_are 1000 tr
    | _ => tr = []
    end.
Proof.
  intros record net. unfold processApiResponse.
  destruct (interpret record) as [u|ipfsHash|]; try reflexivity.
  pose proof (fetchIPFS_with_bounds 3 1000 ipfsHash net) as H. fold fetchIPFS in H.
  destruct (fetchIPFS ipfsHash net) as [[r|] tr]; [destruct (gw_blob_error r)|]; simpl in *; exact H.
Qed.

(** X5: a record is interpreted as a redirect only to the non-empty value
    it holds at [browser.redirect_url], and as content only with a
    non-empty value it holds at [dweb.ipfs.hash], [ipfs.html.value] or
    [crypto.IPFS.value] when the redirect field is empty or absent;
    NotFound means none of the four fields is non-empty. *)
Theorem X5_interpret_values :
  forall record : APIRecord,
    match interpret record with
    | Redirect u => rec_lookup record "browser.redirect_url" = Some u /\ u <> ""
    | Content h =>
        truthy (rec_lookup record "browser.redirect_url") = false /\ h <> "" /\
        (rec_lookup record "dweb.ipfs.hash" = Some h \/
         rec_lookup record "ipfs.html.value" = Some h \/
         rec_lookup record "crypto.IPFS.value" = Some h)
    | NotFound =>
        Forall (fun k => truthy (rec_lookup record k) = false)
          ["browser.redirect_url"; "dweb.ipfs.hash"; "ipfs.html.value"; "crypto.IPFS.value"]
    end.
Proof.
  intros record. unfold interpret, js_or.
  destruct (truthy (rec_lookup record "browser.redirect_url")) eqn:Er.
  { destruct (rec_lookup record "browser.redirect_url") as [u|]; [|discriminate].
    simpl in *. split; [reflexivity|]. intros ->. discriminate. }
  destruct (truthy (rec_lookup record "dweb.ipfs.hash")) eqn:Ea.
  { destruct (rec_lookup record "dweb.ipfs.hash") as [a|]; [|discriminate].
    rewrite Ea. simpl. split; [reflexivity|]. split; [|auto].
    intros ->. discriminate. }
  destruct (truthy (rec_lookup record "ipfs.html.value")) eqn:Eb.
  { destruct (rec_lookup record "ipfs.html.value") as [b|]; [|discriminate].
    rewrite Eb. simpl. split; [reflexivity|]. split; [|auto].
    intros ->. discriminate. }
  destruct (truthy (rec_lookup record "crypto.IPFS.value")) eqn:Ec.
  { destruct (rec_lookup record "crypto.IPFS.value") as [c|]; [|discriminate].
    rewrite Ec. simpl. split; [reflexivity|]. split; [|auto].
    intros ->. discriminate. }
  simpl. repeat constructor; assumption.
Qed.

(** ** Requests *)

(** How [processApiResponse] settles: a fulfilled promise carries one of
    the statuses 200, 302, 404, 500; a rejection comes from
    [Response.redirect] on an unparseable redirect value or from reading
    the body of the fetched gateway response. *)
Definition settles_as_processApiResponse (record : APIRecord) (net : Net) (s : settled) : Prop :=
  match s with
  | Resolved resp => In (status resp) [200; 302; 404; 500]%Z
  | Rejected err =>
      (exists u, interpret record = Redirect u /\ (has_scheme u = false \/ url_href net u = None)) \/
      (exists ipfsHash r, interpret record = Content ipfsHash /\
         fst (fetchIPFS ipfsHash net) = Some r /\ gw_blob_error r = Some err)
  end.

Lemma processApiResponse_settles (record : APIRecord) (net : Net) :
  settles_as_processApiResponse record net (fst (processApiResponse record net)).
Proof.
  unfold processApiResponse. destruct (interpret record) as [u|ipfsHash|] eqn:Hi.
  - unfold Response_redirect. cbn [fst].
    destruct (has_scheme u) eqn:Hs; [destruct (url_href net u) eqn:Hu|];
      simpl; eauto 6.
  - destruct (fetchIPFS ipfsHash net) as [[r|] tr] eqn:Hf; cbn [fst].
    + destruct (gw_blob_error r) as [err|] eqn:Hb; simpl; [|auto].
      right. exists ipfsHash, r. rewrite Hf. auto.
    + simpl. auto.
  - simpl. auto.
Qed.

(** X6: a request's promise either fulfils with one of the statuses 200,
    302, 400, 404 or 500, or rejects. It rejects only when
    [processApiResponse] rejects on the record the cache then holds for
    the request's LookupKey (cached before, or just stored): because the
    two [return processApiResponse(...)] lack an [await], the
    [try/catch] does not turn this rejection into a 500. *)
Theorem X6_request_settlement :
  forall (c : Cache) (env : Env) (h : string) (net : Net),
    match (handleRequest c env h net).2 with
    | Resolved resp => In (status resp) [200; 302; 400; 404; 500]%Z
    | Rejected err =>
        exists k record,
          truthy (UNSTOPPABLE_API_KEY env) = true /\ parseHostname h = Key k /\
          (handleRequest c env h net).1.1 !! k = Some record /\
          fst (processApiResponse record net) = Rejected err /\
          settles_as_processApiResponse record net (Rejected err)
    end.
Proof.
  intros c env h net. unfold handleRequest.
  destruct (truthy (UNSTOPPABLE_API_KEY env)) eqn:Hk; [|simpl; tauto].
  simpl negb. cbv iota.
  destruct (parseHostname h) as [|st msg|k] eqn:Hp; [simpl; tauto| |].
  { destruct (parseHostname_Reject_inv h st msg Hp) as [-> _]. simpl; tauto. }
  assert (Hst : forall r resp, fst (processApiResponse r net) = Resolved resp ->
                              In (status resp) [200; 302; 400; 404; 500]%Z).
  { intros r resp E. pose proof (processApiResponse_settles r net) as H.
    rewrite E in H. simpl in *. tauto. }
  assert (Hrj : forall r err, fst (processApiResponse r net) = Rejected err ->
                              settles_as_processApiResponse r net (Rejected err)).
  { intros r err E. pose proof (processApiResponse_settles r net) as H.
    rewrite E in H. exact H. }
  destruct (c !! k) as [r|] eqn:Hc.
  { destruct (processApiResponse r net) as [[resp|err] tr] eqn:E; cbn [fst snd].
    - apply (Hst r). rewrite E. reflexivity.
    - exists k, r. rewrite E. cbn [fst]. split; [reflexivity|]. split; [reflexivity|].
      split; [exact Hc|]. split; [reflexivity|]. apply Hrj. rewrite E. reflexivity. }
  destruct (resolve net k) as [msg | st stt errt [msg|record]]; [simpl; tauto| |].
  - destruct (negb (status_ok st)); simpl; tauto.
  - destruct (negb (status_ok st)); [simpl; tauto|].
    destruct (processApiResponse record net) as [[resp|err] tr] eqn:E; cbn [fst snd].
    + apply (Hst record). rewrite E. reflexivity.
    + exists k, record. rewrite E. cbn [fst]. split; [reflexivity|]. split; [reflexivity|].
      split; [apply lookup_insert_eq|]. split; [reflexivity|].
      apply Hrj. rewrite E. reflexivity.
Qed.

Lemma count_resolve_none (tr : list event) : Forall not_resolve tr -> count_resolve tr = 0.
Proof.
  unfold count_resolve. induction 1 as [|e tr He _ IH]; [reflexivity|].
  destruct e; simpl in *; [contradiction|exact IH|exact IH].
Qed.

(** X7: a request issues at most one resolution query: exactly one when
    the API key is set, the hostname yields a LookupKey and that key is
    not cached, and none otherwise (no retry at this layer). *)
Theorem X7_one_query_per_miss :
  forall (c : Cache) (env : Env) (h : string) (net : Net),
    count_resolve (handleRequest c env h net).1.2 =
    if truthy (UNSTOPPABLE_API_KEY env) then
      match parseHostname h with
      | Key k => match c !! k with Some _ => 0 | None => 1 end
      | _ => 0
      end
    else 0.
Proof.
  intros c env h net. unfold handleRequest.
  destruct (truthy (UNSTOPPABLE_API_KEY env)); [|reflexivity]. simpl negb. cbv iota.
  destruct (parseHostname h) as [|st msg|k]; try reflexivity.
  destruct (c !! k) as [r|].
  { pose proof (processApiResponse_no_resolve r net) as H.
    destruct (processApiResponse r net). apply count_resolve_none. exact H. }
  destruct (resolve net k) as [msg | st stt errt [msg|record]]; [reflexivity| |].
  - destruct (negb (status_ok st)); reflexivity.
  - destruct (negb (status_ok st)); [reflexivity|].
    pose proof (processApiResponse_no_resolve record net) as H.
    destruct (processApiResponse record net). simpl.
    unfold count_resolve in *. simpl. f_equal.
    apply (count_resolve_none l H).
Qed.

(** Whether the upstream answer is one the worker caches: a 2xx status
    with a body that decodes. *)
Definition upstream_succeeded (u : upstream_result) : bool :=
  match u with UResp st _ _ (inr _) => status_ok st | _ => false end.

Lemma handleRequest_failed_resolution (c : Cache) (env : Env) (h : string) (net : Net)
    (k : string) :
  truthy (UNSTOPPABLE_API_KEY env) = true -> parseHostname h = Key k -> c !! k = None ->
  upstream_succeeded (resolve net k) = false ->
  exists msg, handleRequest c env h net = (c, [EResolve k], Resolved (text_response 500 msg)).
Proof.
  intros Hk Hp Hc Hu. unfold handleRequest. rewrite Hk, Hp. simpl negb. cbv iota.
  rewrite Hc. destruct (resolve net k) as [msg | st stt errt [msg|record]]; simpl in Hu.
  - eauto.
  - destruct (negb (status_ok st)); eauto.
  - rewrite Hu. simpl. eauto.
Qed.

(** X8: when the resolution query fails (network error, non-2xx status
    or undecodable body) the request is answered 500 after exactly that
    one query and nothing is cached, so the next request for the same key
    queries again. *)
Theorem X8_failed_resolution_not_cached :
  forall (c : Cache) (env : Env) (h : string) (net : Net) (k : string),
    truthy (UNSTOPPABLE_API_KEY env) = true -> parseHostname h = Key k -> c !! k = None ->
    upstream_succeeded (resolve net k) = false ->
    exists msg, handleRequest c env h net = (c, [EResolve k], Resolved (text_response 500 msg)).
Proof. exact handleRequest_failed_resolution. Qed.

Lemma X8_failed_resolution_not_cached_witness :
  exists msg, handleRequest ∅ env_with_key "sunspot.brave.site" net_offline
              = (∅, [EResolve "sunspot.brave"], Resolved (text_response 500 msg)).
Proof.
  apply (X8_failed_resolution_not_cached ∅ env_with_key "sunspot.brave.site" net_offline
           "sunspot.brave"); reflexivity.
Defined.

(** X9: the cache is transparent: answering a LookupKey from a cached
    record gives the same response and the same gateway traffic as a
    cache miss whose upstream query returns that record with a 2xx
    status; the miss only adds the one resolution query. *)
Theorem X9_cache_transparent :
  forall (c1 c2 : Cache) (env : Env) (h : string) (net : Net) (k : string)
         (r : APIRecord) (st : Z) (statusText errorText : string),
    truthy (UNSTOPPABLE_API_KEY env) = true -> parseHostname h = Key k ->
    c1 !! k = Some r -> c2 !! k = None ->
    resolve net k = UResp st statusText errorText (inr r) -> status_ok st = true ->
    (handleRequest c2 env h net).2 = (handleRequest c1 env h net).2 /\
    (handleRequest c2 env h net).1.2 = EResolve k :: (handleRequest c1 env h net).1.2.
Proof.
  intros c1 c2 env h net k r st stt errt Hk Hp H1 H2 Hr Hok.
  rewrite (handleRequest_hit c1 env h net k r Hk Hp H1).
  unfold handleRequest. rewrite Hk, Hp. simpl negb. cbv iota.
  rewrite H2, Hr, Hok. simpl negb. cbv iota.
  destruct (processApiResponse r net). split; reflexivity.
Qed.

Lemma X9_cache_transparent_witness :
  (handleRequest ∅ env_with_key "sunspot.brave.site" net_resolving).2
  = (handleRequest {["sunspot.brave" := redirect_record]} env_with_key
       "sunspot.brave.site" net_resolving).2 /\
  (handleRequest ∅ env_with_key "sunspot.brave.site" net_resolving).1.2
  = EResolve "sunspot.brave" ::
    (handleRequest {["sunspot.brave" := redirect_record]} env_with_key
       "sunspot.brave.site" net_resolving).1.2.
Proof.
  apply (X9_cache_transparent {["sunspot.brave" := redirect_record]} ∅ env_with_key
           "sunspot.brave.site" net_resolving "sunspot.brave" redirect_record 200 "OK" "");
    reflexivity.
Defined.

(** ** Waits in the fallback *)

(** Every wait in a trace sits between two fetches of the same URL. *)
Fixpoint waits_between (tr : list event) : bool :=
  match tr with
  | [] => true
  | EFetch g :: EDelay _ :: rest =>
      match rest with
      | EFetch g' :: _ => String.eqb g g' && waits_between rest
      | _ => false
      end
  | EDelay _ :: _ => false
  | _ :: rest => waits_between rest
  end.

Definition starts_with_fetch (tr : list event) : Prop :=
  tr = [] \/ exists g t, tr = EFetch g :: t.

Lemma waits_between_fetch (g : string) (t : list event) :
  starts_with_fetch t -> waits_between (EFetch g :: t) = waits_between t.
Proof. intros [->|(g' & t' & ->)]; reflexivity. Qed.

Lemma retry_loop_waits (net : Net) (g : string) (retries delay i n : nat) :
  i + n = retries ->
  let tr := snd (retry_loop net g retries delay i n) in
  waits_between tr = true /\ ((n = 0 /\ tr = []) \/ exists t, tr = EFetch g :: t).
Proof.
  revert i. induction n as [|n IH]; intros i Hin; simpl; [auto|].
  specialize (IH (S i) ltac:(lia)).
  destruct (attempt net g i) as [msg|r].
  - destruct (retry_loop net g retries delay (S i) n) as [res tr]. cbn [snd] in *.
    destruct IH as [Hw Hs]. split; [|eauto].
    rewrite waits_between_fetch; [exact Hw|].
    destruct Hs as [[_ ->]|[t ->]]; [left; reflexivity|right; eauto].
  - destruct (gw_ok r); [simpl; eauto|].
    destruct (retry_loop net g retries delay (S i) n) as [res tr]. cbn [snd] in *.
    destruct IH as [Hw Hs]. split; [|eauto].
    destruct (Nat.ltb_spec i (retries - 1)).
    + destruct Hs as [[Hn _]|[t ->]]; [lia|].
      simpl. rewrite String.eqb_refl. exact Hw.
    + cbn [app]. rewrite waits_between_fetch; [exact Hw|].
      destruct Hs as [[_ ->]|[t ->]]; [left; reflexivity|right; eauto].
Qed.

Lemma waits_between_resolve (k : string) (t : list event) :
  waits_between (EResolve k :: t) = waits_between t.
Proof. reflexivity. Qed.

Lemma waits_between_fetch_unfold (g : string) (t : list event) :
  waits_between (EFetch g :: t) =
  match t with
  | EDelay _ :: rest =>
      match rest with
      | EFetch g' :: _ => String.eqb g g' && waits_between rest
      | _ => false
      end
  | _ => waits_between t
  end.
Proof. destruct t as [|[] [|[] ]]; reflexivity. Qed.

Lemma waits_between_app (a b : list event) :
  waits_between a = true -> waits_between b = true -> starts_with_fetch b ->
  waits_between (a ++ b)%list = true.
Proof.
  intros Ha Hb Hs. remember (length a) as n eqn:En.
  revert a Ha En. induction n as [n IH] using lt_wf_ind. intros a Ha En.
  destruct a as [|e a]; [exact Hb|].
  cbn [app]. destruct e as [k|g|d].
  - rewrite waits_between_resolve in *.
    exact (IH (length a) ltac:(simpl in En; lia) a Ha eq_refl).
  - rewrite waits_between_fetch_unfold in *.
    destruct a as [|e a].
    + cbn [app]. destruct Hs as [->|(g' & t & ->)]; exact Hb.
    + cbn [app]. destruct e as [k|g'|d].
      * exact (IH (length (EResolve k :: a)) ltac:(simpl in En; simpl; lia) (EResolve k :: a) Ha eq_refl).
      * exact (IH (length (EFetch g' :: a)) ltac:(simpl in En; simpl; lia) (EFetch g' :: a) Ha eq_refl).
      * destruct a as [|e a]; [discriminate|].
        destruct e as [k|g'|d']; try discriminate.
        apply andb_true_iff in Ha as [Hg Ha]. cbn [app]. rewrite Hg. cbn [andb].
        exact (IH (length (EFetch g' :: a)) ltac:(simpl in En; simpl; lia) (EFetch g' :: a) Ha eq_refl).
  - discriminate.
Qed.

Lemma fallback_waits (net : Net) (retries delay : nat) (gs : list string) :
  let tr := snd (fallback net retries delay gs) in
  waits_between tr = true /\ starts_with_fetch tr.
Proof.
  induction gs as [|g gs IH]; simpl; [split; [reflexivity|left; reflexivity]|].
  pose proof (retry_loop_waits net g retries delay 0 retries eq_refl) as Hr.
  destruct (retry_loop net g retries delay 0 retries) as [[r|] tr]; simpl in Hr.
  - destruct Hr as [Hw Hs]. split; [exact Hw|].
    destruct Hs as [[_ ->]|[t ->]]; [left; reflexivity|right; eauto].
  - destruct (fallback net retries delay gs) as [res' tr']. simpl in *.
    destruct Hr as [Hw Hs]. destruct IH as [Iw Is].
    split; [apply waits_between_app; assumption|].
    destruct Hs as [[_ ->]|[t ->]]; [exact Is|right; eauto].
Qed.

(** X11: in the trace of [fetchIPFS] (for any retry count and delay)
    every wait lies between two consecutive attempts on the same gateway:
    there is no wait after the last attempt on a gateway, before moving
    to the next gateway, or before giving up. *)
Theorem X11_waits_between_attempts :
  forall (retries delay : nat) (ipfsHash : string) (net : Net),
    waits_between (snd (fetchIPFS_with retries delay ipfsHash net)) = true.
Proof.
  intros retries delay ipfsHash net. unfold fetchIPFS_with.
  destruct (race_settle net (gateways ipfsHash)) as [first later].
  destruct (race first later); [reflexivity|].
  pose proof (fallback_waits net retries delay (gateways ipfsHash)) as [Hw Hs].
  destruct (fallback net retries delay (gateways ipfsHash)) as [res tr]. simpl in *.
  change (waits_between (map EFetch (gateways ipfsHash) ++ tr)%list = true).
  apply waits_between_app; [reflexivity|exact Hw|exact Hs].
Qed.
